(** * Node arenas of the lambda-calculus representation

    A shallow embedding of [lang/lambda/context.cpp]: the generic
    helper [emplace_node] and the five factory member functions of
    [term_factory] and [stmt_factory], over an explicit model of the free
    store.  Pointers are addresses ([N], with [0] for [nullptr]); the free
    store is a finite map from addresses to objects; a member function is
    a computation in a state-and-error monad over the free store that
    returns the pointer result together with the updated receiver. *)

From stdpp Require Import gmap list strings.

Local Open Scope N_scope.

(** ** Addresses and objects *)

Abbreviation addr := N (only parsing).
Abbreviation nullptr := 0%N (only parsing).

(** Modelled from the spec: the node classes ([Variable_impl],
    [Abstraction_impl], [Application_impl], [Declaration_impl],
    [Evaluation_impl]) and [Symbol] are declared in headers that are not
    part of the sources at hand.  Following section 3 of the
    specification, a Variable wraps one Symbol reference, an Abstraction
    holds a Variable reference and a Term reference, an Application two
    Term references, a Declaration a Variable reference and a Term
    reference, an Evaluation one Term reference.  A pointer to a derived
    node converts to a pointer to its base ([Variable*], [Term*]) without
    changing the address. *)
Inductive object : Type :=
  | Symbol (name : string)
  | Variable_impl (sym : addr)
  | Abstraction_impl (variable body : addr)
  | Application_impl (left right : addr)
  | Declaration_impl (variable definition : addr)
  | Evaluation_impl (term : addr).

#[global] Instance object_eq_dec : EqDecision object.
Proof. solve_decision. Defined.

(** The free store: the objects alive at each address. *)
Abbreviation heap := (gmap N object) (only parsing).

(** The kinds of node the two arenas hand out, one per storage member. *)
Inductive kind : Type := KVar | KAbs | KApp | KDecl | KEval.

#[global] Instance kind_eq_dec : EqDecision kind.
Proof. solve_decision. Defined.

Definition kind_of_object (o : object) : option kind :=
  match o with
  | Symbol _ => None
  | Variable_impl _ => Some KVar
  | Abstraction_impl _ _ => Some KAbs
  | Application_impl _ _ => Some KApp
  | Declaration_impl _ _ => Some KDecl
  | Evaluation_impl _ => Some KEval
  end.

(** The node addresses a composite node stores (the Symbol reference of a
    Variable is not a node address). *)
Definition node_refs (o : object) : list addr :=
  match o with
  | Symbol _ | Variable_impl _ => []
  | Abstraction_impl v b => [v; b]
  | Application_impl l r => [l; r]
  | Declaration_impl v d => [v; d]
  | Evaluation_impl t => [t]
  end.

(** Every pointer member of an object, in declaration order. *)
Definition members (o : object) : list addr :=
  match o with
  | Symbol _ => []
  | Variable_impl s => [s]
  | Abstraction_impl v b => [v; b]
  | Application_impl l r => [l; r]
  | Declaration_impl v d => [v; d]
  | Evaluation_impl t => [t]
  end.

(** A pointer value a caller can hold legitimately in free store [h]:
    null, or the address of a live object. *)
Definition is_valid (h : heap) (q : addr) : bool :=
  match h !! q with
  | Some _ => true
  | None => bool_decide (q = nullptr)
  end.

(** Member access through a pointer: [p->variable], [p->body], ...  The
    result is [None] where the pointer does not point to a node with that
    member. *)
Definition variable (h : heap) (p : addr) : option addr :=
  match h !! p with
  | Some (Abstraction_impl v _) | Some (Declaration_impl v _) => Some v
  | _ => None
  end.

Definition body (h : heap) (p : addr) : option addr :=
  match h !! p with Some (Abstraction_impl _ b) => Some b | _ => None end.

Definition left (h : heap) (p : addr) : option addr :=
  match h !! p with Some (Application_impl l _) => Some l | _ => None end.

Definition right (h : heap) (p : addr) : option addr :=
  match h !! p with Some (Application_impl _ r) => Some r | _ => None end.

Definition definition (h : heap) (p : addr) : option addr :=
  match h !! p with Some (Declaration_impl _ d) => Some d | _ => None end.

Definition term (h : heap) (p : addr) : option addr :=
  match h !! p with Some (Evaluation_impl t) => Some t | _ => None end.

Definition symbol (h : heap) (p : addr) : option addr :=
  match h !! p with Some (Variable_impl s) => Some s | _ => None end.

(** ** The allocator

    [allocate h] is the address the allocator hands out in free store
    [h], or [None] when memory is exhausted.  The only facts used about
    it are those every allocator satisfies: the address is not in use and
    is not null. *)
Class Allocator : Type := {
  allocate : heap → option addr;
  allocate_fresh : ∀ h a, allocate h = Some a → h !! a = None;
  allocate_nonnull : ∀ h a, allocate h = Some a → a ≠ nullptr;
}.

(** ** Computations over the free store *)

Inductive outcome (A : Type) : Type :=
  | Ok (x : A)          (* normal return *)
  | BadAlloc            (* the allocation failed: std::bad_alloc *)
  | Undefined.          (* undefined behaviour was reached *)
Arguments Ok {A} x.
Arguments BadAlloc {A}.
Arguments Undefined {A}.

Definition M (A : Type) : Type := heap → outcome (A * heap).

#[global] Instance M_ret : MRet M := λ A x h, Ok (x, h).

#[global] Instance M_bind : MBind M := λ A B f m h,
  match m h with
  | Ok (x, h') => f x h'
  | BadAlloc => BadAlloc
  | Undefined => Undefined
  end.

Definition undefined {A} : M A := λ _, Undefined.

Section free_store.
Context {allocator : Allocator}.

(** Allocate a cell and construct [x] in it. *)
Definition new (x : object) : M addr :=
  λ h, match allocate h with
       | Some a => Ok (a, <[a := x]> h)
       | None => BadAlloc
       end.
End free_store.

(** ** Containers

    [emplace_node] is a template over its container type [List]; what it
    needs of it is [emplace_back] and [back]. *)
Class BackInsertion {allocator : Allocator} (L : Type) : Type := {
  (* [list.emplace_back(args...)]: [x] is the element the arguments
     construct *)
  emplace_back : object → L → M L;
  (* [&list.back()]: the location of the last element; calling [back()]
     on an empty container is undefined *)
  back : L → option addr;
}.

(** Modelled from the spec: the storage members [var], [abs], [app],
    [decls] and [evals] are declared in [context.hpp], which is not part
    of the sources at hand.  Section 4.1 of the specification requires a
    storage structure in which appending never relocates an element, "a
    node-per-allocation list structure", and the helper names its
    template parameter [List]: the members are modelled as [std::list].
    A list owns one free-store cell per element; [nodes] are the
    addresses of its elements, front to back. *)
Module std_list.
Record t : Type := mk { nodes : list addr }.

Definition empty : t := mk [].

Definition size (l : t) : nat := length (nodes l).

(** The address of the element at position [i]. *)
Definition address_of (l : t) (i : nat) : option addr := nodes l !! i.

#[export] Instance back_insertion {allocator : Allocator} : BackInsertion t := {|
  emplace_back x l := a ← new x; mret (mk (nodes l ++ [a]));
  back l := last (nodes l);
|}.
End std_list.
Export (hints) std_list.

(** ** [emplace_node] *)

Section emplace_node.
Context {allocator : Allocator} {List : Type} `{!BackInsertion List}.

Definition emplace_node (list : List) (x : object) : M (addr * List) :=
  list' ← emplace_back x list;
  match back list' with
  | Some p => mret (p, list')
  | None => undefined
  end.
End emplace_node.

(** ** The term arena *)

Module term_factory.
(** Modelled from the spec: the data members of [term_factory], from
    the absent [context.hpp]; one storage per node kind. *)
Record t : Type := mk {
  var : std_list.t;
  abs : std_list.t;
  app : std_list.t;
}.

Definition empty : t := mk std_list.empty std_list.empty std_list.empty.

Section members.
Context {allocator : Allocator}.

Definition make_variable (sym : addr) (this : t) : M (addr * t) :=
  '(p, l) ← emplace_node (var this) (Variable_impl sym);
  mret (p, mk l (abs this) (app this)).

Definition make_abstraction (var term : addr) (this : t) : M (addr * t) :=
  '(p, l) ← emplace_node (abs this) (Abstraction_impl var term);
  mret (p, mk (term_factory.var this) l (app this)).

Definition make_application (left right : addr) (this : t) : M (addr * t) :=
  '(p, l) ← emplace_node (app this) (Application_impl left right);
  mret (p, mk (var this) (abs this) l).
End members.
End term_factory.

(** ** The statement arena *)

Module stmt_factory.
(** Modelled from the spec: the data members of [stmt_factory], from
    the absent [context.hpp]. *)
Record t : Type := mk {
  decls : std_list.t;
  evals : std_list.t;
}.

Definition empty : t := mk std_list.empty std_list.empty.

Section members.
Context {allocator : Allocator}.

Definition make_declaration (var def : addr) (this : t) : M (addr * t) :=
  '(p, l) ← emplace_node (decls this) (Declaration_impl var def);
  mret (p, mk l (evals this)).

Definition make_evaluation (term : addr) (this : t) : M (addr * t) :=
  '(p, l) ← emplace_node (evals this) (Evaluation_impl term);
  mret (p, mk (decls this) l).
End members.
End stmt_factory.

(** ** Clients

    A builder owns one term arena and one statement arena and issues
    factory calls, in any order and with any arguments. *)

Inductive call : Type :=
  | MakeVariable (sym : addr)
  | MakeAbstraction (var term : addr)
  | MakeApplication (left right : addr)
  | MakeDeclaration (var def : addr)
  | MakeEvaluation (term : addr).

Record arenas : Type := Arenas {
  terms : term_factory.t;
  stmts : stmt_factory.t;
}.

Definition no_nodes : arenas := Arenas term_factory.empty stmt_factory.empty.

(** The arena a call goes to, as the storage its node is appended to. *)
Definition kind_of (c : call) : kind :=
  match c with
  | MakeVariable _ => KVar
  | MakeAbstraction _ _ => KAbs
  | MakeApplication _ _ => KApp
  | MakeDeclaration _ _ => KDecl
  | MakeEvaluation _ => KEval
  end.

(** The node a call asks for: the element its arguments construct. *)
Definition node_of (c : call) : object :=
  match c with
  | MakeVariable s => Variable_impl s
  | MakeAbstraction v t => Abstraction_impl v t
  | MakeApplication l r => Application_impl l r
  | MakeDeclaration v d => Declaration_impl v d
  | MakeEvaluation t => Evaluation_impl t
  end.

(** The reference arguments of a call. *)
Definition args_of (c : call) : list addr :=
  match c with
  | MakeVariable s => [s]
  | MakeAbstraction v t => [v; t]
  | MakeApplication l r => [l; r]
  | MakeDeclaration v d => [v; d]
  | MakeEvaluation t => [t]
  end.

Definition storage (k : kind) (s : arenas) : std_list.t :=
  match k with
  | KVar => term_factory.var (terms s)
  | KAbs => term_factory.abs (terms s)
  | KApp => term_factory.app (terms s)
  | KDecl => stmt_factory.decls (stmts s)
  | KEval => stmt_factory.evals (stmts s)
  end.

(** The arenas with one more node, at address [p], at the back of the
    storage for kind [k]; every other storage as it was. *)
Definition push_node (k : kind) (p : addr) (s : arenas) : arenas :=
  let grown := std_list.mk (std_list.nodes (storage k s) ++ [p]) in
  let tf := terms s in
  let sf := stmts s in
  match k with
  | KVar => Arenas (term_factory.mk grown (term_factory.abs tf) (term_factory.app tf)) sf
  | KAbs => Arenas (term_factory.mk (term_factory.var tf) grown (term_factory.app tf)) sf
  | KApp => Arenas (term_factory.mk (term_factory.var tf) (term_factory.abs tf) grown) sf
  | KDecl => Arenas tf (stmt_factory.mk grown (stmt_factory.evals sf))
  | KEval => Arenas tf (stmt_factory.mk (stmt_factory.decls sf) grown)
  end.

(** The addresses returned to the calls of kind [k], in call order. *)
Fixpoint returned_of (k : kind) (cs : list call) (rets : list addr) : list addr :=
  match cs, rets with
  | c :: cs', p :: rets' =>
      if decide (kind_of c = k) then p :: returned_of k cs' rets'
      else returned_of k cs' rets'
  | _, _ => []
  end.

Definition all_kinds : list kind := [KVar; KAbs; KApp; KDecl; KEval].

(** Every node of both arenas, storage by storage. *)
Definition all_nodes (s : arenas) : list addr :=
  k ← all_kinds; std_list.nodes (storage k s).

Definition node_count (s : arenas) : nat := length (all_nodes s).

(** The nodes of each arena on its own. *)
Definition term_nodes (s : arenas) : list addr :=
  std_list.nodes (storage KVar s) ++ std_list.nodes (storage KAbs s)
    ++ std_list.nodes (storage KApp s).

Definition stmt_nodes (s : arenas) : list addr :=
  std_list.nodes (storage KDecl s) ++ std_list.nodes (storage KEval s).

(** Whether a call is a member function of [term_factory] (or else of
    [stmt_factory]). *)
Definition on_term_factory (c : call) : bool :=
  match c with
  | MakeVariable _ | MakeAbstraction _ _ | MakeApplication _ _ => true
  | MakeDeclaration _ _ | MakeEvaluation _ => false
  end.

Section clients.
Context {allocator : Allocator}.

Definition perform (c : call) (s : arenas) : M (addr * arenas) :=
  match c with
  | MakeVariable sym =>
      '(p, tf) ← term_factory.make_variable sym (terms s);
      mret (p, Arenas tf (stmts s))
  | MakeAbstraction v t =>
      '(p, tf) ← term_factory.make_abstraction v t (terms s);
      mret (p, Arenas tf (stmts s))
  | MakeApplication l r =>
      '(p, tf) ← term_factory.make_application l r (terms s);
      mret (p, Arenas tf (stmts s))
  | MakeDeclaration v d =>
      '(p, sf) ← stmt_factory.make_declaration v d (stmts s);
      mret (p, Arenas (terms s) sf)
  | MakeEvaluation t =>
      '(p, sf) ← stmt_factory.make_evaluation t (stmts s);
      mret (p, Arenas (terms s) sf)
  end.

(** A sequence of calls, collecting the addresses returned. *)
Fixpoint run (cs : list call) (s : arenas) : M (list addr * arenas) :=
  match cs with
  | [] => mret ([], s)
  | c :: cs' =>
      '(p, s') ← perform c s;
      '(ps, s'') ← run cs' s';
      mret (p :: ps, s'')
  end.

(** Whether every node reference handed to a call of the sequence is
    valid at the time of that call. *)
Fixpoint valid_arguments (cs : list call) (s : arenas) (h : heap) : bool :=
  match cs with
  | [] => true
  | c :: cs' =>
      forallb (is_valid h) (node_refs (node_of c)) &&
      match perform c s h with
      | Ok ((_, s'), h') => valid_arguments cs' s' h'
      | _ => true
      end
  end.
End clients.

(** A computation that fails in free store [h] exactly when the
    allocator is exhausted there, and then with [BadAlloc]. *)
Definition fails_only_on_exhaustion {allocator : Allocator} {A} (m : M A) (h : heap) : Prop :=
  match allocate h with
  | Some _ => ∃ x (h' : heap), m h = Ok (x, h')
  | None => m h = BadAlloc
  end.




(** Whether the allocator can provide a cell for each call of [cs] in
    turn, the cell of a call holding its node when the next call asks. *)
Fixpoint enough_memory {allocator : Allocator} (cs : list call) (h : heap) : bool :=
  match cs with
  | [] => true
  | c :: cs' =>
      match allocate h with
      | Some a => enough_memory cs' (<[a := node_of c]> h)
      | None => false
      end
  end.

(** Creation order as the term arena as a whole could hold it: read
    storage after storage, in some order of its three storages, its
    nodes are the addresses returned, in call order. *)
Definition held_in_creation_order (rets : list addr) (s : arenas) : Prop :=
  ∃ order, order ≡ₚ [KVar; KAbs; KApp] ∧
           mjoin ((λ k, std_list.nodes (storage k s)) <$> order) = rets.

(** ** A concrete allocator

    A bump allocator over a memory of [limit] cells: it hands out the
    address after the highest one in use, and fails when that address is
    beyond the memory. *)
Definition top (h : heap) : addr := map_fold (λ a _ m, N.max a m) 0 h.

Definition bump_allocate (limit : N) (h : heap) : option addr :=
  let a := N.succ (top h) in
  if decide (a < limit) then Some a else None.

Lemma top_upper_bound (h : heap) (a : addr) (o : object) :
  h !! a = Some o → a ≤ top h.
Proof.
  unfold top. revert a o.
  apply (map_fold_weak_ind (λ m (h' : heap), ∀ a o, h' !! a = Some o → a ≤ m)).
  - intros a o. by rewrite lookup_empty.
  - intros b x h' m Hb IH a o. rewrite lookup_insert.
    case_decide; intros Ha; simplify_eq; [lia|].
    specialize (IH _ _ Ha). lia.
Qed.

Lemma bump_allocate_fresh limit (h : heap) (a : addr) :
  bump_allocate limit h = Some a → h !! a = None.
Proof.
  unfold bump_allocate. case_decide; intros [= <-].
  destruct (h !! N.succ (top h)) eqn:E; [|done].
  apply top_upper_bound in E. lia.
Qed.

Lemma bump_allocate_nonnull limit (h : heap) (a : addr) :
  bump_allocate limit h = Some a → a ≠ nullptr.
Proof. unfold bump_allocate. case_decide; intros [= <-]. lia. Qed.

Definition bump (limit : N) : Allocator := {|
  allocate := bump_allocate limit;
  allocate_fresh := bump_allocate_fresh limit;
  allocate_nonnull := bump_allocate_nonnull limit;
|}.


(** ** A concrete machine

    Three Symbols [x], [y] and [z] that the caller owns, at addresses 1,
    2 and 3; the examples run on it with a bump allocator over sixteen
    cells of memory. *)

Definition symbols : heap :=
  <[3 := Symbol "z"]> (<[2 := Symbol "y"]> (<[1 := Symbol "x"]> ∅)).

(** The term arena after [v1 = make_variable(x)] and
    [v2 = make_variable(y)], and the free store then. *)
Definition two_variables : arenas :=
  push_node KVar 5 (push_node KVar 4 no_nodes).

Definition two_variables_heap : heap :=
  <[5 := Variable_impl 2]> (<[4 := Variable_impl 1]> symbols).

(** ** The graph of nodes

    [arena_edge rets h p q]: the node at [p] stores the address [q], both
    among the addresses [rets] that factory calls returned. *)
Definition arena_edge (rets : list addr) (h : heap) (p q : addr) : Prop :=
  p ∈ rets ∧ q ∈ rets ∧ ∃ o, h !! p = Some o ∧ q ∈ node_refs o.

(** * Properties *)

Section theory.
Context {allocator : Allocator}.

Implicit Types (h : heap) (p q a : addr) (s : arenas) (c : call)
  (cs : list call) (k : kind) (l : std_list.t) (x o : object).

(** ** What one call does *)

Lemma emplace_node_std_list l x h :
  emplace_node l x h =
    match allocate h with
    | Some a => Ok ((a, std_list.mk (std_list.nodes l ++ [a])), <[a := x]> h)
    | None => BadAlloc
    end.
Proof.
  unfold emplace_node, mbind, M_bind, mret, M_ret; simpl.
  unfold mbind, M_bind, new. destruct (allocate h) as [a|]; [|done].
  simpl. by rewrite last_snoc.
Qed.

Local Ltac unfold_factory h :=
  intros;
  unfold term_factory.make_variable, term_factory.make_abstraction,
    term_factory.make_application, stmt_factory.make_declaration,
    stmt_factory.make_evaluation;
  unfold mbind at 1, M_bind at 1;
  rewrite emplace_node_std_list; by destruct (allocate h).

Lemma make_variable_unfold sym (tf : term_factory.t) h :
  term_factory.make_variable sym tf h =
    match allocate h with
    | Some a => Ok ((a, terms (push_node KVar a (Arenas tf stmt_factory.empty))),
                    <[a := Variable_impl sym]> h)
    | None => BadAlloc
    end.
Proof. unfold_factory h. Qed.

Lemma make_abstraction_unfold v t (tf : term_factory.t) h :
  term_factory.make_abstraction v t tf h =
    match allocate h with
    | Some a => Ok ((a, terms (push_node KAbs a (Arenas tf stmt_factory.empty))),
                    <[a := Abstraction_impl v t]> h)
    | None => BadAlloc
    end.
Proof. unfold_factory h. Qed.

Lemma make_application_unfold lhs rhs (tf : term_factory.t) h :
  term_factory.make_application lhs rhs tf h =
    match allocate h with
    | Some a => Ok ((a, terms (push_node KApp a (Arenas tf stmt_factory.empty))),
                    <[a := Application_impl lhs rhs]> h)
    | None => BadAlloc
    end.
Proof. unfold_factory h. Qed.

Lemma make_declaration_unfold v d (sf : stmt_factory.t) h :
  stmt_factory.make_declaration v d sf h =
    match allocate h with
    | Some a => Ok ((a, stmts (push_node KDecl a (Arenas term_factory.empty sf))),
                    <[a := Declaration_impl v d]> h)
    | None => BadAlloc
    end.
Proof. unfold_factory h. Qed.

Lemma make_evaluation_unfold t (sf : stmt_factory.t) h :
  stmt_factory.make_evaluation t sf h =
    match allocate h with
    | Some a => Ok ((a, stmts (push_node KEval a (Arenas term_factory.empty sf))),
                    <[a := Evaluation_impl t]> h)
    | None => BadAlloc
    end.
Proof. unfold_factory h. Qed.

Lemma perform_unfold c s h :
  perform c s h =
    match allocate h with
    | Some a => Ok ((a, push_node (kind_of c) a s), <[a := node_of c]> h)
    | None => BadAlloc
    end.
Proof.
  destruct c, s as [tf sf]; simpl; unfold mbind, M_bind;
    rewrite ?make_variable_unfold, ?make_abstraction_unfold,
      ?make_application_unfold, ?make_declaration_unfold,
      ?make_evaluation_unfold;
    by destruct (allocate h).
Qed.

Lemma perform_Ok c s h p s' (h' : heap) :
  perform c s h = Ok ((p, s'), h') ↔
  allocate h = Some p ∧ s' = push_node (kind_of c) p s ∧ h' = <[p := node_of c]> h.
Proof.
  rewrite perform_unfold. destruct (allocate h) as [a|].
  - split; [by intros [= -> <- <-]|by intros ([= ->] & -> & ->)].
  - split; [done|by intros [? _]].
Qed.

Lemma storage_push_node k k' p s :
  std_list.nodes (storage k' (push_node k p s)) =
    if decide (k' = k) then std_list.nodes (storage k s) ++ [p]
    else std_list.nodes (storage k' s).
Proof. by destruct k, k', s as [[] []]. Qed.

Lemma storage_push_node_ne k k' p s :
  k' ≠ k → storage k' (push_node k p s) = storage k' s.
Proof. by destruct k, k', s as [[] []]. Qed.

(** ** What a sequence of calls does *)

Lemma run_nil s h rets s' (h' : heap) :
  run [] s h = Ok ((rets, s'), h') ↔ rets = [] ∧ s' = s ∧ h' = h.
Proof.
  simpl. unfold mret, M_ret.
  split; [by intros [= <- <- <-]|by intros (-> & -> & ->)].
Qed.

Lemma run_cons c cs s h rets s' (h' : heap) :
  run (c :: cs) s h = Ok ((rets, s'), h') ↔
  ∃ p rs s1 (h1 : heap),
    perform c s h = Ok ((p, s1), h1) ∧ run cs s1 h1 = Ok ((rs, s'), h') ∧
    rets = p :: rs.
Proof.
  simpl. unfold mbind at 1, M_bind at 1.
  destruct (perform c s h) as [[[p s1] h1]| |];
    try (split; [done|by intros (?&?&?&?&?&_)]).
  unfold mbind, M_bind.
  destruct (run cs s1 h1) as [[[rs s2] h2]| |] eqn:Hrun;
    try (split; [done|intros (?&?&?&?&[= <- <- <-]&Hr&_); by rewrite Hrun in Hr]).
  unfold mret, M_ret. split.
  - intros [= <- <- <-]. by exists p, rs, s1, h1.
  - intros (?&?&?&?&[= <- <- <-]&Hr&->). rewrite Hrun in Hr. by simplify_eq.
Qed.

Lemma run_app cs1 cs2 s h rets s' (h' : heap) :
  run (cs1 ++ cs2) s h = Ok ((rets, s'), h') ↔
  ∃ r1 r2 s1 (h1 : heap),
    run cs1 s h = Ok ((r1, s1), h1) ∧ run cs2 s1 h1 = Ok ((r2, s'), h') ∧
    rets = r1 ++ r2.
Proof.
  revert s h rets. induction cs1 as [|c cs1 IH]; intros s h rets.
  - rewrite app_nil_l. split.
    + intros Hrun. exists [], rets, s, h. by rewrite run_nil.
    + intros (r1 & r2 & s1 & h1 & (-> & -> & ->)%run_nil & Hrun & ->). done.
  - rewrite <-app_comm_cons, run_cons. split.
    + intros (p & rs & s1 & h1 & Hc & (r1 & r2 & s2 & h2 & H1 & H2 & ->)%IH & ->).
      exists (p :: r1), r2, s2, h2. split_and!; [|done..].
      apply run_cons. by exists p, r1, s1, h1.
    + intros (r1 & r2 & s2 & h2 & (p & rs & s1 & h1 & Hc & H1 & ->)%run_cons & H2 & ->).
      exists p, (rs ++ r2), s1, h1. split_and!; [done| |done].
      apply IH. by exists rs, r2, s2, h2.
Qed.

Lemma run_length cs s h rets s' (h' : heap) :
  run cs s h = Ok ((rets, s'), h') → length rets = length cs.
Proof.
  revert s h rets. induction cs as [|c cs IH]; intros s h rets.
  - by intros (-> & _)%run_nil.
  - intros (p & rs & s1 & h1 & _ & Hrun%IH & ->)%run_cons. simpl. by f_equal.
Qed.

(** No call removes or overwrites an object of the free store. *)
Lemma run_heap_mono cs s h rets s' (h' : heap) :
  run cs s h = Ok ((rets, s'), h') → h ⊆ h'.
Proof.
  revert s h rets. induction cs as [|c cs IH]; intros s h rets.
  - by intros (_ & _ & ->)%run_nil.
  - intros (p & rs & s1 & h1 & (Ha & -> & ->)%perform_Ok & Hrun%IH & ->)%run_cons.
    etrans; [|done]. apply insert_subseteq. eauto using allocate_fresh.
Qed.

(** Each call is given a cell that was free when the sequence began,
    and the cell holds the node the call asked for ever after. *)
Lemma run_lookup cs s h rets s' (h' : heap) i c p :
  run cs s h = Ok ((rets, s'), h') → cs !! i = Some c → rets !! i = Some p →
  h !! p = None ∧ h' !! p = Some (node_of c).
Proof.
  revert s h rets i. induction cs as [|c0 cs IH]; intros s h rets i; [done|].
  intros (p0 & rs & s1 & h1 & (Ha & -> & ->)%perform_Ok & Hrun & ->)%run_cons.
  destruct i as [|i]; simpl.
  - intros [= ->] [= ->]. split; [eauto using allocate_fresh|].
    eapply lookup_weaken; [apply lookup_insert_eq|eauto using run_heap_mono].
  - intros Hc Hp. destruct (IH _ _ _ _ Hrun Hc Hp) as [Hnone Hsome].
    split; [|done]. rewrite lookup_insert in Hnone. by case_decide.
Qed.

Lemma run_NoDup cs s h rets s' (h' : heap) :
  run cs s h = Ok ((rets, s'), h') → NoDup rets.
Proof.
  revert s h rets. induction cs as [|c cs IH]; intros s h rets.
  - intros (-> & _)%run_nil. constructor.
  - intros (p & rs & s1 & h1 & (Ha & -> & ->)%perform_Ok & Hrun & ->)%run_cons.
    constructor; [|eauto].
    intros (i & Hi)%list_elem_of_lookup.
    destruct (lookup_lt_is_Some_2 cs i) as [c' Hc'].
    { rewrite <-(run_length _ _ _ _ _ _ Hrun). eauto using lookup_lt_Some. }
    destruct (run_lookup _ _ _ _ _ _ _ _ _ Hrun Hc' Hi) as [Hnone _].
    by rewrite lookup_insert_eq in Hnone.
Qed.

(** Each storage grows, at its back, by the addresses returned to the
    calls of its kind, in call order. *)
Lemma run_storage cs s h rets s' (h' : heap) k :
  run cs s h = Ok ((rets, s'), h') →
  std_list.nodes (storage k s') =
    std_list.nodes (storage k s) ++ returned_of k cs rets.
Proof.
  revert s h rets. induction cs as [|c cs IH]; intros s h rets.
  - intros (-> & -> & _)%run_nil. by rewrite app_nil_r.
  - intros (p & rs & s1 & h1 & (Ha & -> & ->)%perform_Ok & Hrun%IH & ->)%run_cons.
    rewrite Hrun, storage_push_node. simpl.
    destruct (decide (k = kind_of c)) as [->|Hne].
    + rewrite decide_True by done. by rewrite <-app_assoc.
    + rewrite decide_False by done. done.
Qed.

(** A node stays where it was put: after any further calls, the element
    a call appended is at the same position of the same storage, at the
    same address, and the cell at that address holds the same node. *)
Lemma node_stays c cs s h p s1 (h1 : heap) rets s2 (h2 : heap) :
  perform c s h = Ok ((p, s1), h1) →
  run cs s1 h1 = Ok ((rets, s2), h2) →
  std_list.address_of (storage (kind_of c) s2)
    (std_list.size (storage (kind_of c) s)) = Some p ∧
  h2 !! p = Some (node_of c).
Proof.
  intros (Ha & -> & ->)%perform_Ok Hrun. split.
  - unfold std_list.address_of, std_list.size.
    rewrite (run_storage _ _ _ _ _ _ _ Hrun), storage_push_node.
    rewrite decide_True by done. rewrite <-app_assoc.
    by rewrite lookup_app_r, Nat.sub_diag by done.
  - eapply lookup_weaken; [apply lookup_insert_eq|eauto using run_heap_mono].
Qed.

Lemma node_count_push_node k p s :
  node_count (push_node k p s) = S (node_count s).
Proof.
  unfold node_count, all_nodes, all_kinds.
  destruct k, s as [[[] [] []] [[] []]]; simpl;
    rewrite ?length_app; simpl; rewrite ?length_app; simpl; lia.
Qed.

Lemma run_node_count cs s h rets s' (h' : heap) :
  run cs s h = Ok ((rets, s'), h') →
  node_count s' = (node_count s + length cs)%nat.
Proof.
  revert s h rets. induction cs as [|c cs IH]; intros s h rets.
  - intros (_ & -> & _)%run_nil. simpl. lia.
  - intros (p & rs & s1 & h1 & (Ha & -> & ->)%perform_Ok & Hrun%IH & ->)%run_cons.
    rewrite Hrun, node_count_push_node. simpl. lia.
Qed.

Lemma run_nonnull cs s h rets s' (h' : heap) p :
  run cs s h = Ok ((rets, s'), h') → p ∈ rets → p ≠ nullptr.
Proof.
  revert s h rets. induction cs as [|c cs IH]; intros s h rets.
  - intros (-> & _)%run_nil. by intros ?%elem_of_nil.
  - intros (p0 & rs & s1 & h1 & (Ha & -> & ->)%perform_Ok & Hrun & ->)%run_cons.
    intros [->|Hin]%elem_of_cons; eauto using allocate_nonnull.
Qed.

(** A run, cut at its [i]-th call. *)
Lemma run_split cs s h rets s' (h' : heap) i c :
  run cs s h = Ok ((rets, s'), h') → cs !! i = Some c →
  ∃ r1 p r2 s1 (h1 : heap) s2 (h2 : heap),
    run (take i cs) s h = Ok ((r1, s1), h1) ∧
    perform c s1 h1 = Ok ((p, s2), h2) ∧
    run (drop (S i) cs) s2 h2 = Ok ((r2, s'), h') ∧
    rets = r1 ++ p :: r2 ∧ length r1 = i.
Proof.
  intros Hrun Hc.
  rewrite <-(take_drop_middle cs i c Hc) in Hrun.
  apply run_app in Hrun as (r1 & r & s1 & h1 & Hpre & Hrest & ->).
  apply run_cons in Hrest as (p & r2 & s2 & h2 & Hp & Hpost & ->).
  exists r1, p, r2, s1, h1, s2, h2. split_and!; try done.
  rewrite (run_length _ _ _ _ _ _ Hpre), length_take.
  apply lookup_lt_Some in Hc. lia.
Qed.

Lemma returned_of_lookup k cs rets q :
  q ∈ returned_of k cs rets →
  ∃ i c, cs !! i = Some c ∧ rets !! i = Some q ∧ kind_of c = k.
Proof.
  revert rets. induction cs as [|c cs IH]; intros [|p rets]; simpl;
    try by intros ?%elem_of_nil.
  case_decide as Hk.
  - intros [->|Hin]%elem_of_cons.
    + by exists 0%nat, c.
    + destruct (IH _ Hin) as (i & c' & ? & ? & ?). by exists (S i), c'.
  - intros Hin. destruct (IH _ Hin) as (i & c' & ? & ? & ?). by exists (S i), c'.
Qed.

Lemma length_returned_of k cs rets :
  length rets = length cs →
  length (returned_of k cs rets) = length (filter (λ c, kind_of c = k) cs).
Proof.
  revert rets. induction cs as [|c cs IH]; intros [|p rets]; simpl; try done.
  intros [= Hlen]. rewrite filter_cons.
  case_decide; simpl; by rewrite IH.
Qed.

(** In a state reached from empty arenas every node of every storage
    was returned by a call of the run, and is alive. *)
Lemma reached_node_alive cs h0 rets s (h : heap) k q :
  run cs no_nodes h0 = Ok ((rets, s), h) →
  q ∈ std_list.nodes (storage k s) →
  ∃ i c, cs !! i = Some c ∧ rets !! i = Some q ∧ kind_of c = k ∧
         h !! q = Some (node_of c).
Proof.
  intros Hrun Hq. rewrite (run_storage _ _ _ _ _ _ k Hrun) in Hq.
  assert (std_list.nodes (storage k no_nodes) = []) as Hnil by by destruct k.
  rewrite Hnil, app_nil_l in Hq.
  apply returned_of_lookup in Hq as (i & c & Hc & Hp & Hk).
  exists i, c. split_and!; try done.
  by destruct (run_lookup _ _ _ _ _ _ _ _ _ Hrun Hc Hp).
Qed.

Lemma valid_arguments_at cs s h i c r1 s1 (h1 : heap) :
  valid_arguments cs s h = true →
  run (take i cs) s h = Ok ((r1, s1), h1) →
  cs !! i = Some c →
  forallb (is_valid h1) (node_refs (node_of c)) = true.
Proof.
  revert cs s h r1. induction i as [|i IH]; intros [|c0 cs] s h r1; try done.
  - simpl. intros [Hc _]%andb_prop [= <- <- <-] [= ->]. done.
  - rewrite firstn_cons. intros Hvalid Hrun Hc.
    apply run_cons in Hrun as (p & rs & s2 & h2 & Hp & Hrun & ->).
    simpl in Hvalid. rewrite Hp in Hvalid.
    apply andb_prop in Hvalid as [_ Hvalid]. eauto.
Qed.

Lemma count_by_arena cs :
  (length (filter (λ c, kind_of c = KVar) cs)
   + (length (filter (λ c, kind_of c = KAbs) cs)
      + length (filter (λ c, kind_of c = KApp) cs))
   = length (filter (λ c, on_term_factory c = true) cs))%nat ∧
  (length (filter (λ c, kind_of c = KDecl) cs)
   + length (filter (λ c, kind_of c = KEval) cs)
   = length (filter (λ c, on_term_factory c = false) cs))%nat.
Proof.
  induction cs as [|c cs [IH1 IH2]]; [done|].
  rewrite !filter_cons.
  destruct c; simpl; repeat case_decide; try done; simpl; lia.
Qed.

(** ** The contract of the arenas *)

(** C1 (address stability).  Take any sequence of creation calls, on
    either arena and in any mix, and any one call [c] of it, the k-th.
    Run on their own, the first k calls end with [c] returning an
    address [p]: the node is the last element of its storage and the
    cell at [p] holds it.  The whole sequence returns the same [p] for
    its k-th call, and when all the later calls have completed the same
    element of the same storage is still at address [p], and the cell
    at [p] still holds the same node. *)
Theorem address_stability cs1 c cs2 s0 h0 rets sN (hN : heap) :
  run (cs1 ++ c :: cs2) s0 h0 = Ok ((rets, sN), hN) →
  ∃ r1 p sk (hk : heap),
    run (cs1 ++ [c]) s0 h0 = Ok ((r1 ++ [p], sk), hk) ∧
    length r1 = length cs1 ∧
    rets !! length cs1 = Some p ∧
    let i := (std_list.size (storage (kind_of c) sk) - 1)%nat in
    std_list.address_of (storage (kind_of c) sk) i = Some p ∧
    hk !! p = Some (node_of c) ∧
    std_list.address_of (storage (kind_of c) sN) i = Some p ∧
    hN !! p = Some (node_of c).
Proof.
  intros (r1 & r2 & s1 & h1 & Hpre & Hrest & ->)%run_app.
  apply run_cons in Hrest as (p & rs & sk & hk & Hc & Hpost & ->).
  exists r1, p, sk, hk.
  assert (length r1 = length cs1) as Hlen by eauto using run_length.
  destruct (node_stays _ _ _ _ _ _ _ _ _ _ Hc Hpost) as [HaN HhN].
  destruct (node_stays c [] _ _ _ _ _ [] sk hk Hc) as [Hak Hhk];
    [by apply run_nil|].
  assert (std_list.size (storage (kind_of c) sk) - 1
          = std_list.size (storage (kind_of c) s1))%nat as ->.
  { apply perform_Ok in Hc as (_ & -> & _). unfold std_list.size.
    rewrite storage_push_node, decide_True by done.
    rewrite length_app. simpl. lia. }
  split_and!; try done.
  - apply run_app. exists r1, [p], s1, h1. split_and!; [done| |done].
    apply run_cons. exists p, [], sk, hk. split_and!; [done| |done].
    by apply run_nil.
  - rewrite <-Hlen. by rewrite lookup_app_r, Nat.sub_diag by done.
Qed.

(** C2 (append one, return the address of the last).  Whenever the
    allocator can provide a cell, at [p], a factory call returns, and it
    returns [p]: it has grown the storage of its node kind by exactly one
    element, at the back; the element is the node constructed from the
    arguments of the call, placed in the cell at [p], which was free; [p]
    is the address of the last element of that storage; the other
    storages are as they were. *)
Theorem factory_appends_one_node c s h p :
  allocate h = Some p →
  ∃ s' (h' : heap),
    perform c s h = Ok ((p, s'), h') ∧
    let l := storage (kind_of c) s in
    let l' := storage (kind_of c) s' in
    std_list.nodes l' = std_list.nodes l ++ [p] ∧
    std_list.size l' = S (std_list.size l) ∧
    back l' = Some p ∧
    h !! p = None ∧
    h' = <[p := node_of c]> h ∧
    (∀ k, k ≠ kind_of c → storage k s' = storage k s) ∧
    node_count s' = S (node_count s).
Proof.
  intros Ha.
  exists (push_node (kind_of c) p s), (<[p := node_of c]> h).
  split; [by rewrite perform_unfold, Ha|]. intros l l'.
  assert (std_list.nodes l' = std_list.nodes l ++ [p]) as Hl'.
  { unfold l'. by rewrite storage_push_node, decide_True. }
  split_and!.
  - done.
  - unfold std_list.size. rewrite Hl', length_app. simpl. lia.
  - simpl. rewrite Hl'. apply last_snoc.
  - eauto using allocate_fresh.
  - done.
  - intros k Hk. by apply storage_push_node_ne.
  - apply node_count_push_node.
Qed.

(** C3 (referential integrity).  The Abstraction that
    [make_abstraction(v, t)] returns exposes the addresses passed in:
    its variable is [v] and its body is [t]. *)
Theorem abstraction_exposes_arguments v t tf h p tf' (h' : heap) :
  term_factory.make_abstraction v t tf h = Ok ((p, tf'), h') →
  variable h' p = Some v ∧ body h' p = Some t.
Proof.
  rewrite make_abstraction_unfold.
  destruct (allocate h) as [a|]; [|done]. intros [= <- <- <-].
  unfold variable, body. by rewrite lookup_insert_eq.
Qed.

(** C4 (the statement factories).  [make_declaration(v, d)] appends one
    Declaration to [decls], in a free cell, and returns its address;
    the Declaration references exactly [v] and [d].
    [make_evaluation(t)] does the same on [evals] with an Evaluation
    referencing exactly [t].  Either address is stable: after any
    further calls on either arena the node is the same element of its
    storage, at the same address, referencing the same addresses. *)
Theorem statement_factories_reference_arguments v d t sf h :
  (∀ p sf' (h' : heap),
     stmt_factory.make_declaration v d sf h = Ok ((p, sf'), h') →
     std_list.nodes (stmt_factory.decls sf')
       = std_list.nodes (stmt_factory.decls sf) ++ [p] ∧
     stmt_factory.evals sf' = stmt_factory.evals sf ∧
     h !! p = None ∧ variable h' p = Some v ∧ definition h' p = Some d ∧
     ∀ tf cs rets s2 (h2 : heap),
       run cs (Arenas tf sf') h' = Ok ((rets, s2), h2) →
       std_list.address_of (stmt_factory.decls (stmts s2))
         (std_list.size (stmt_factory.decls sf)) = Some p ∧
       variable h2 p = Some v ∧ definition h2 p = Some d) ∧
  (∀ p sf' (h' : heap),
     stmt_factory.make_evaluation t sf h = Ok ((p, sf'), h') →
     std_list.nodes (stmt_factory.evals sf')
       = std_list.nodes (stmt_factory.evals sf) ++ [p] ∧
     stmt_factory.decls sf' = stmt_factory.decls sf ∧
     h !! p = None ∧ term h' p = Some t ∧
     ∀ tf cs rets s2 (h2 : heap),
       run cs (Arenas tf sf') h' = Ok ((rets, s2), h2) →
       std_list.address_of (stmt_factory.evals (stmts s2))
         (std_list.size (stmt_factory.evals sf)) = Some p ∧
       term h2 p = Some t).
Proof.
  split; intros p sf' h'.
  - rewrite make_declaration_unfold.
    destruct (allocate h) as [a|] eqn:Ha; [|done]. intros [= <- <- <-].
    unfold variable, definition. rewrite lookup_insert_eq.
    split_and!; try done; [eauto using allocate_fresh|].
    intros tf cs rets s2 h2 Hrun.
    assert (perform (MakeDeclaration v d) (Arenas tf sf) h
            = Ok ((a, push_node KDecl a (Arenas tf sf)),
                  <[a := Declaration_impl v d]> h)) as Hc.
    { rewrite perform_unfold. by rewrite Ha. }
    destruct (node_stays _ _ _ _ _ _ _ _ _ _ Hc Hrun) as [Haddr Hnode].
    by rewrite Hnode.
  - rewrite make_evaluation_unfold.
    destruct (allocate h) as [a|] eqn:Ha; [|done]. intros [= <- <- <-].
    unfold term. rewrite lookup_insert_eq.
    split_and!; try done; [eauto using allocate_fresh|].
    intros tf cs rets s2 h2 Hrun.
    assert (perform (MakeEvaluation t) (Arenas tf sf) h
            = Ok ((a, push_node KEval a (Arenas tf sf)),
                  <[a := Evaluation_impl t]> h)) as Hc.
    { rewrite perform_unfold. by rewrite Ha. }
    destruct (node_stays _ _ _ _ _ _ _ _ _ _ Hc Hrun) as [Haddr Hnode].
    by rewrite Hnode.
Qed.

(** C5 (independence across node kinds).  In arenas built by any
    sequence of calls, one more call, creating a node of some kind,
    leaves every storage of another kind as it was, element for
    element, and leaves the cell of every node of those storages
    untouched: what the node references (its left and right, for an
    Application) is what it referenced before the call. *)
Theorem kinds_are_independent cs h0 rets s h c p s' (h' : heap) :
  run cs no_nodes h0 = Ok ((rets, s), h) →
  perform c s h = Ok ((p, s'), h') →
  ∀ k, k ≠ kind_of c →
    storage k s' = storage k s ∧
    ∀ q, q ∈ std_list.nodes (storage k s) →
      is_Some (h !! q) ∧ h' !! q = h !! q ∧
      left h' q = left h q ∧ right h' q = right h q.
Proof.
  intros Hrun (Ha & -> & ->)%perform_Ok k Hk.
  split; [by apply storage_push_node_ne|].
  intros q Hq.
  destruct (reached_node_alive _ _ _ _ _ _ _ Hrun Hq) as (i & c' & _ & _ & _ & Hnode).
  assert (p ≠ q) as Hne.
  { intros ->. apply allocate_fresh in Ha. congruence. }
  unfold left, right. rewrite lookup_insert_ne by done. eauto.
Qed.

(** C6 (append only).  Whatever calls are made, every storage keeps the
    elements it had, in place, as a prefix of what it holds afterwards;
    every object of the free store, the nodes created earlier among
    them, is still there with the same content; and the arenas hold one
    more node per call. *)
Theorem arenas_are_append_only cs s h rets s' (h' : heap) :
  run cs s h = Ok ((rets, s'), h') →
  (∀ k, std_list.nodes (storage k s) `prefix_of` std_list.nodes (storage k s')) ∧
  (∀ q o, h !! q = Some o → h' !! q = Some o) ∧
  node_count s' = (node_count s + length cs)%nat.
Proof.
  intros Hrun. split_and!.
  - intros k. rewrite (run_storage _ _ _ _ _ _ k Hrun). by eexists.
  - intros q o Hq. eapply lookup_weaken; eauto using run_heap_mono.
  - eauto using run_node_count.
Qed.

(** C7 (no error but exhaustion).  In any free store and for any
    arguments whatever, each of the five factory operations returns
    normally when the allocator can provide a cell, and fails, with the
    allocation failure, only when it cannot. *)
Theorem factories_fail_only_on_exhaustion h :
  (∀ sym tf, fails_only_on_exhaustion (term_factory.make_variable sym tf) h) ∧
  (∀ v t tf, fails_only_on_exhaustion (term_factory.make_abstraction v t tf) h) ∧
  (∀ lhs rhs tf, fails_only_on_exhaustion (term_factory.make_application lhs rhs tf) h) ∧
  (∀ v d sf, fails_only_on_exhaustion (stmt_factory.make_declaration v d sf) h) ∧
  (∀ t sf, fails_only_on_exhaustion (stmt_factory.make_evaluation t sf) h).
Proof.
  unfold fails_only_on_exhaustion. split_and!; intros;
    rewrite ?make_variable_unfold, ?make_abstraction_unfold,
      ?make_application_unfold, ?make_declaration_unfold,
      ?make_evaluation_unfold;
    destruct (allocate h); eauto.
Qed.


Lemma enough_memory_run cs s h :
  enough_memory cs h = true →
  ∃ rets s' (h' : heap), run cs s h = Ok ((rets, s'), h').
Proof.
  revert s h. induction cs as [|c cs IH]; intros s h.
  - intros _. exists [], s, h. by apply run_nil.
  - simpl. destruct (allocate h) as [a|] eqn:Ha; [|done]. intros Hrest.
    destruct (IH (push_node (kind_of c) a s) _ Hrest) as (rs & s' & h' & Hrun).
    exists (a :: rs), s', h'. apply run_cons.
    exists a, rs, (push_node (kind_of c) a s), (<[a := node_of c]> h).
    split_and!; [|done..]. by rewrite perform_unfold, Ha.
Qed.


(** C9, as amended (no deduplication).  Whenever the allocator can
    provide a cell for each call in turn, a sequence of calls on arenas
    that start empty returns: one address per call and no address twice,
    whatever the arguments, equal or not; each address holds the node of
    its own call; each storage holds exactly the addresses returned to
    the calls of its kind, in call order; so each arena holds exactly as
    many nodes as calls were made on it, and both together as many as
    there were calls. *)
Theorem no_deduplication cs h0 :
  enough_memory cs h0 = true →
  ∃ rets s (h : heap),
    run cs no_nodes h0 = Ok ((rets, s), h) ∧
    length rets = length cs ∧
    NoDup rets ∧
    (∀ i c p, cs !! i = Some c → rets !! i = Some p →
              h !! p = Some (node_of c)) ∧
    (∀ k, std_list.nodes (storage k s) = returned_of k cs rets) ∧
    length (term_nodes s) = length (filter (λ c, on_term_factory c = true) cs) ∧
    length (stmt_nodes s) = length (filter (λ c, on_term_factory c = false) cs) ∧
    node_count s = length cs.
Proof.
  intros (rets & s & h & Hrun)%(enough_memory_run _ no_nodes).
  exists rets, s, h.
  assert (length rets = length cs) as Hlen by eauto using run_length.
  assert (∀ k, std_list.nodes (storage k s) = returned_of k cs rets) as Hst.
  { intros k. rewrite (run_storage _ _ _ _ _ _ k Hrun). by destruct k. }
  destruct (count_by_arena cs) as [Hterm Hstmt].
  split_and!; try done.
  - eauto using run_NoDup.
  - intros i c p Hc Hp. by destruct (run_lookup _ _ _ _ _ _ _ _ _ Hrun Hc Hp).
  - unfold term_nodes. rewrite !Hst, !length_app, !length_returned_of by done.
    done.
  - unfold stmt_nodes. rewrite !Hst, !length_app, !length_returned_of by done.
    done.
  - by rewrite (run_node_count _ _ _ _ _ _ Hrun).
Qed.

(** C10 (no validation of arguments).  Whatever its reference arguments,
    null or not, all of them or some, a call returns normally whenever
    the allocator can provide a cell: the node is appended in a cell that
    was free, the address returned is that of the last element of the
    storage, the pointer members of the node are the arguments, position
    by position, a null argument being stored as null; and after any
    further calls the node is at the same address, unchanged. *)
Theorem null_arguments_are_accepted c s h :
  is_Some (allocate h) →
  ∃ p s' (h' : heap) o,
    perform c s h = Ok ((p, s'), h') ∧
    h !! p = None ∧
    back (storage (kind_of c) s') = Some p ∧
    h' !! p = Some o ∧
    kind_of_object o = Some (kind_of c) ∧
    members o = args_of c ∧
    (∀ i, args_of c !! i = Some nullptr → members o !! i = Some nullptr) ∧
    ∀ cs rets s2 (h2 : heap),
      run cs s' h' = Ok ((rets, s2), h2) →
      std_list.address_of (storage (kind_of c) s2)
        (std_list.size (storage (kind_of c) s)) = Some p ∧
      h2 !! p = Some o.
Proof.
  intros [p Ha].
  assert (perform c s h
          = Ok ((p, push_node (kind_of c) p s), <[p := node_of c]> h)) as Hc.
  { rewrite perform_unfold. by rewrite Ha. }
  exists p, (push_node (kind_of c) p s), (<[p := node_of c]> h), (node_of c).
  assert (members (node_of c) = args_of c) as Hm by by destruct c.
  split_and!; try done.
  - eauto using allocate_fresh.
  - simpl. rewrite storage_push_node, decide_True by done. apply last_snoc.
  - apply lookup_insert_eq.
  - by destruct c.
  - intros i. by rewrite Hm.
  - intros cs rets s2 h2 Hrun. eauto using node_stays.
Qed.
End theory.

(** * The contract on the concrete machine *)

Lemma address_stability_witness :
  let cs1 := [MakeVariable 1; MakeVariable 2] in
  let c := MakeApplication 4 5 in
  let cs2 := [MakeVariable 3; MakeAbstraction 4 4; MakeEvaluation 6] in
  ∃ rets sN (hN : heap),
    run (allocator := bump 16) (cs1 ++ c :: cs2) no_nodes symbols
      = Ok ((rets, sN), hN) ∧
    ∃ r1 p sk (hk : heap),
      run (allocator := bump 16) (cs1 ++ [c]) no_nodes symbols
        = Ok ((r1 ++ [p], sk), hk) ∧
      length r1 = length cs1 ∧
      rets !! length cs1 = Some p ∧
      let i := (std_list.size (storage (kind_of c) sk) - 1)%nat in
      std_list.address_of (storage (kind_of c) sk) i = Some p ∧
      hk !! p = Some (node_of c) ∧
      std_list.address_of (storage (kind_of c) sN) i = Some p ∧
      hN !! p = Some (node_of c).
Proof.
  intros cs1 c cs2.
  exists [4; 5; 6; 7; 8; 9],
    (push_node KEval 9 (push_node KAbs 8 (push_node KVar 7
       (push_node KApp 6 two_variables)))),
    (<[9 := Evaluation_impl 6]> (<[8 := Abstraction_impl 4 4]>
       (<[7 := Variable_impl 3]> (<[6 := Application_impl 4 5]>
          two_variables_heap)))).
  split; [vm_compute; reflexivity|].
  apply (@address_stability (bump 16) cs1 c cs2 no_nodes symbols).
  vm_compute; reflexivity.
Defined.

(** Each of the five factories, over the two variables. *)
Lemma factory_appends_one_node_witness :
  allocate (Allocator := bump 16) two_variables_heap = Some 6 ∧
  Forall (λ c,
    ∃ s' (h' : heap),
      perform (allocator := bump 16) c two_variables two_variables_heap
        = Ok ((6, s'), h') ∧
      std_list.nodes (storage (kind_of c) s')
        = std_list.nodes (storage (kind_of c) two_variables) ++ [6] ∧
      back (allocator := bump 16) (storage (kind_of c) s') = Some 6 ∧
      h' = <[6 := node_of c]> two_variables_heap ∧
      node_count s' = 3%nat)
    [MakeVariable 3; MakeAbstraction 4 5; MakeApplication 4 5;
     MakeDeclaration 4 5; MakeEvaluation 5].
Proof.
  assert (allocate (Allocator := bump 16) two_variables_heap = Some 6) as Hcell
    by (vm_compute; reflexivity).
  split; [exact Hcell|].
  repeat match goal with
  | |- Forall _ (?c :: _) =>
      apply Forall_cons; split;
        [pose proof (@factory_appends_one_node (bump 16) c two_variables
                       two_variables_heap 6 Hcell) as Hgrown;
         cbv zeta in Hgrown;
         destruct Hgrown
           as (s' & h' & Hcall & Hnodes & _ & Hback & _ & Hheap & _ & Hcount);
         exists s', h'; split_and!;
           [exact Hcall|exact Hnodes|exact Hback|exact Hheap|exact Hcount]
        |]
  end.
  apply Forall_nil_2.
Defined.

(** The identity function: [v1 = make_variable(x)], then
    [abs = make_abstraction(v1, v1)]. *)
Lemma abstraction_exposes_arguments_witness :
  let tf0 := term_factory.empty in
  let tf1 := terms (push_node KVar 4 no_nodes) in
  let h1 := <[4 := Variable_impl 1]> symbols in
  let tf2 := terms (push_node KAbs 5 (push_node KVar 4 no_nodes)) in
  let h2 := <[5 := Abstraction_impl 4 4]> h1 in
  term_factory.make_variable (allocator := bump 16) 1 tf0 symbols
    = Ok ((4, tf1), h1) ∧
  term_factory.make_abstraction (allocator := bump 16) 4 4 tf1 h1
    = Ok ((5, tf2), h2) ∧
  variable h2 5 = Some 4 ∧ body h2 5 = Some 4.
Proof.
  intros tf0 tf1 h1 tf2 h2.
  split; [vm_compute; reflexivity|].
  split; [vm_compute; reflexivity|].
  apply (@abstraction_exposes_arguments (bump 16) 4 4 tf1 h1 5 tf2 h2).
  vm_compute; reflexivity.
Defined.

(** A declaration [x = y] and an evaluation of [y], over the two
    variables. *)
Lemma statement_factories_reference_arguments_witness :
  let sf := stmt_factory.empty in
  let h := two_variables_heap in
  let sfd := stmts (push_node KDecl 6 no_nodes) in
  let hd := <[6 := Declaration_impl 4 5]> h in
  let sfe := stmts (push_node KEval 6 no_nodes) in
  let he := <[6 := Evaluation_impl 5]> h in
  (stmt_factory.make_declaration (allocator := bump 16) 4 5 sf h
     = Ok ((6, sfd), hd) ∧
   variable hd 6 = Some 4 ∧ definition hd 6 = Some 5 ∧
   ∀ rets s2 (h2 : heap),
     run (allocator := bump 16) [MakeEvaluation 5; MakeDeclaration 5 4]
       (Arenas (terms two_variables) sfd) hd = Ok ((rets, s2), h2) →
     std_list.address_of (stmt_factory.decls (stmts s2)) 0 = Some 6 ∧
     variable h2 6 = Some 4 ∧ definition h2 6 = Some 5) ∧
  (stmt_factory.make_evaluation (allocator := bump 16) 5 sf h
     = Ok ((6, sfe), he) ∧
   term he 6 = Some 5).
Proof.
  intros sf h sfd hd sfe he.
  destruct (@statement_factories_reference_arguments (bump 16) 4 5 5 sf h)
    as [Hdecl Heval].
  split.
  - split; [vm_compute; reflexivity|].
    destruct (Hdecl 6 sfd hd) as (_ & _ & _ & Hv & Hd & Hstable);
      [vm_compute; reflexivity|].
    split_and!; [exact Hv|exact Hd|].
    intros rets s2 h2. apply Hstable.
  - split; [vm_compute; reflexivity|].
    destruct (Heval 6 sfe he) as (_ & _ & _ & Ht & _);
      [vm_compute; reflexivity|].
    exact Ht.
Defined.

(** The application chain: [app = make_application(v1, v2)], then
    [make_variable(z)]. *)
Lemma kinds_are_independent_witness :
  let cs := [MakeVariable 1; MakeVariable 2; MakeApplication 4 5] in
  let s := push_node KApp 6 two_variables in
  let h := <[6 := Application_impl 4 5]> two_variables_heap in
  let s' := push_node KVar 7 s in
  let h' := <[7 := Variable_impl 3]> h in
  run (allocator := bump 16) cs no_nodes symbols = Ok (([4; 5; 6], s), h) ∧
  perform (allocator := bump 16) (MakeVariable 3) s h = Ok ((7, s'), h') ∧
  storage KApp s' = storage KApp s ∧
  left h 6 = Some 4 ∧ right h 6 = Some 5 ∧
  left h' 6 = Some 4 ∧ right h' 6 = Some 5.
Proof.
  intros cs s h s' h'.
  assert (run (allocator := bump 16) cs no_nodes symbols = Ok (([4; 5; 6], s), h))
    as Hrun by (vm_compute; reflexivity).
  assert (perform (allocator := bump 16) (MakeVariable 3) s h = Ok ((7, s'), h'))
    as Hcall by (vm_compute; reflexivity).
  assert (left h 6 = Some 4) as Hl by (vm_compute; reflexivity).
  assert (right h 6 = Some 5) as Hr by (vm_compute; reflexivity).
  destruct (@kinds_are_independent (bump 16) cs symbols [4; 5; 6] s h
              (MakeVariable 3) 7 s' h' Hrun Hcall KApp) as [Hsame Hnodes];
    [discriminate|].
  destruct (Hnodes 6) as (_ & _ & Hl' & Hr').
  { vm_compute. apply list_elem_of_here. }
  split_and!; try done; congruence.
Defined.

Lemma arenas_are_append_only_witness :
  let cs := [MakeApplication 4 5; MakeVariable 3; MakeEvaluation 6] in
  let s' := push_node KEval 8 (push_node KVar 7 (push_node KApp 6 two_variables)) in
  let h' := <[8 := Evaluation_impl 6]> (<[7 := Variable_impl 3]>
              (<[6 := Application_impl 4 5]> two_variables_heap)) in
  run (allocator := bump 16) cs two_variables two_variables_heap
    = Ok (([6; 7; 8], s'), h') ∧
  (∀ k, std_list.nodes (storage k two_variables)
          `prefix_of` std_list.nodes (storage k s')) ∧
  (∀ q o, two_variables_heap !! q = Some o → h' !! q = Some o) ∧
  node_count s' = (node_count two_variables + 3)%nat.
Proof.
  intros cs s' h'. split; [vm_compute; reflexivity|].
  apply (@arenas_are_append_only (bump 16) cs two_variables two_variables_heap
           [6; 7; 8] s' h').
  vm_compute; reflexivity.
Defined.

(** In a memory of four cells, three of them taken by the Symbols,
    nothing can be allocated: each factory fails with the allocation
    failure.  In a memory of sixteen each returns normally. *)
Lemma factories_fail_only_on_exhaustion_witness :
  term_factory.make_variable (allocator := bump 4) 1 term_factory.empty symbols
    = BadAlloc ∧
  ∃ x (h' : heap),
    term_factory.make_variable (allocator := bump 16) 1 term_factory.empty symbols
      = Ok (x, h').
Proof.
  split.
  - exact (proj1 (@factories_fail_only_on_exhaustion (bump 4) symbols)
             1 term_factory.empty).
  - exact (proj1 (@factories_fail_only_on_exhaustion (bump 16) symbols)
             1 term_factory.empty).
Defined.


(** A Variable, an Application, another Variable: three calls on the
    term arena, which holds three nodes afterwards, the Variables in one
    storage and the Application in another.  However the storages are
    laid end to end, the second Variable comes right after the first:
    the order the three nodes were created in is not there. *)
Lemma creation_order_counterexample :
  let cs := [MakeVariable 1; MakeApplication 4 4; MakeVariable 2] in
  let s := push_node KVar 6 (push_node KApp 5 (push_node KVar 4 no_nodes)) in
  let h := <[6 := Variable_impl 2]> (<[5 := Application_impl 4 4]>
             (<[4 := Variable_impl 1]> symbols)) in
  run (allocator := bump 16) cs no_nodes symbols = Ok (([4; 5; 6], s), h) ∧
  std_list.nodes (storage KVar s) = [4; 6] ∧
  std_list.nodes (storage KAbs s) = [] ∧
  std_list.nodes (storage KApp s) = [5] ∧
  ¬ held_in_creation_order [4; 5; 6] s.
Proof.
  intros cs s h. split_and!; try (vm_compute; reflexivity).
  intros (order & Horder & Hnodes).
  symmetry in Horder. apply permutations_Permutation in Horder.
  vm_compute in Horder.
  repeat (apply elem_of_cons in Horder as [->|Horder]; [discriminate Hnodes|]).
  by apply elem_of_nil in Horder.
Qed.

(** The same three calls, and a call on each statement factory. *)
Lemma no_deduplication_witness :
  let cs := [MakeVariable 1; MakeApplication 4 4; MakeVariable 1;
             MakeAbstraction 4 4; MakeDeclaration 4 5; MakeEvaluation 5;
             MakeApplication 4 4] in
  enough_memory (allocator := bump 16) cs symbols = true ∧
  ∃ rets s (h : heap),
    run (allocator := bump 16) cs no_nodes symbols = Ok ((rets, s), h) ∧
    length rets = 7%nat ∧
    NoDup rets ∧
    (∀ k, std_list.nodes (storage k s) = returned_of k cs rets) ∧
    length (term_nodes s) = 5%nat ∧
    length (stmt_nodes s) = 2%nat ∧
    node_count s = 7%nat.
Proof.
  intros cs.
  assert (enough_memory (allocator := bump 16) cs symbols = true) as Hmem
    by (vm_compute; reflexivity).
  split; [exact Hmem|].
  destruct (@no_deduplication (bump 16) cs symbols Hmem)
    as (rets & s & h & Hrun & Hlen & Hdistinct & _ & Hstorage & Hterms
        & Hstmts & Hcount).
  exists rets, s, h.
  split_and!; [exact Hrun|exact Hlen|exact Hdistinct|exact Hstorage
              |exact Hterms|exact Hstmts|exact Hcount].
Defined.

(** [make_variable(nullptr)], [make_application(nullptr, nullptr)], and
    [make_abstraction(v1, nullptr)] with one reference null and the other
    not. *)
Lemma null_arguments_are_accepted_witness :
  is_Some (allocate (Allocator := bump 16) two_variables_heap) ∧
  (∃ p s' (h' : heap),
     perform (allocator := bump 16) (MakeVariable nullptr)
       two_variables two_variables_heap = Ok ((p, s'), h') ∧
     symbol h' p = Some nullptr) ∧
  (∃ p s' (h' : heap),
     perform (allocator := bump 16) (MakeApplication nullptr nullptr)
       two_variables two_variables_heap = Ok ((p, s'), h') ∧
     left h' p = Some nullptr ∧ right h' p = Some nullptr) ∧
  (∃ p s' (h' : heap),
     perform (allocator := bump 16) (MakeAbstraction 4 nullptr)
       two_variables two_variables_heap = Ok ((p, s'), h') ∧
     variable h' p = Some 4 ∧ body h' p = Some nullptr).
Proof.
  assert (is_Some (allocate (Allocator := bump 16) two_variables_heap)) as Hcell
    by (vm_compute; eauto).
  split; [exact Hcell|]. split_and!.
  - destruct (@null_arguments_are_accepted (bump 16) (MakeVariable nullptr)
                two_variables two_variables_heap Hcell)
      as (p & s' & h' & o & Hcall & _ & _ & Ho & Hkind & Hmem & _).
    exists p, s', h'. split; [exact Hcall|].
    unfold symbol. rewrite Ho.
    destruct o; simplify_eq/=. reflexivity.
  - destruct (@null_arguments_are_accepted (bump 16)
                (MakeApplication nullptr nullptr)
                two_variables two_variables_heap Hcell)
      as (p & s' & h' & o & Hcall & _ & _ & Ho & Hkind & Hmem & _).
    exists p, s', h'. split; [exact Hcall|].
    unfold left, right. rewrite Ho.
    destruct o; simplify_eq/=. split; reflexivity.
  - destruct (@null_arguments_are_accepted (bump 16)
                (MakeAbstraction 4 nullptr)
                two_variables two_variables_heap Hcell)
      as (p & s' & h' & o & Hcall & _ & _ & Ho & Hkind & Hmem & _).
    exists p, s', h'. split; [exact Hcall|].
    unfold variable, body. rewrite Ho.
    destruct o; simplify_eq/=. split; reflexivity.
Defined.

(** * Further properties of the factories *)

Section more_theory.
Context {allocator : Allocator}.

Implicit Types (h : heap) (p q a : addr) (s : arenas) (c : call)
  (cs : list call) (k : kind) (x o : object).

Lemma is_valid_mono h (h' : heap) q :
  h ⊆ h' → is_valid h q = true → is_valid h' q = true.
Proof.
  unfold is_valid. intros Hsub.
  destruct (h !! q) as [o|] eqn:Hq.
  - by rewrite (lookup_weaken _ _ _ _ Hq Hsub).
  - intros ->. by destruct (h' !! q).
Qed.

(** The arguments of the [i]-th call are valid in the free store the run
    ends with, nothing being freed on the way. *)
Lemma valid_arguments_final cs s h rets s' (h' : heap) i c q :
  valid_arguments cs s h = true →
  run cs s h = Ok ((rets, s'), h') →
  cs !! i = Some c → q ∈ node_refs (node_of c) →
  is_valid h' q = true.
Proof.
  intros Hvalid Hrun Hc Hq.
  destruct (run_split _ _ _ _ _ _ _ _ Hrun Hc)
    as (r1 & p & r2 & s1 & h1 & s2 & h2 & Hpre & Hcall & Hpost & -> & Hlen).
  pose proof (valid_arguments_at _ _ _ _ _ _ _ _ Hvalid Hpre Hc) as Hargs.
  rewrite forallb_forall in Hargs.
  apply (is_valid_mono h1); [|by apply Hargs, list_elem_of_In].
  assert (run (c :: drop (S i) cs) s1 h1 = Ok ((p :: r2, s'), h')) as Htail.
  { apply run_cons. by exists p, r2, s2, h2. }
  eauto using run_heap_mono.
Qed.

(** With valid arguments, a reference stored by the [i]-th node to the
    [j]-th node goes backwards. *)
Lemma stored_reference_goes_back cs s h rets s' (h' : heap) i j c q :
  valid_arguments cs s h = true →
  run cs s h = Ok ((rets, s'), h') →
  cs !! i = Some c → q ∈ node_refs (node_of c) → rets !! j = Some q →
  (j < i)%nat.
Proof.
  intros Hvalid Hrun Hc Hq Hj.
  destruct (run_split _ _ _ _ _ _ _ _ Hrun Hc)
    as (r1 & p & r2 & s1 & h1 & s2 & h2 & Hpre & Hcall & Hpost & -> & Hlen).
  pose proof (valid_arguments_at _ _ _ _ _ _ _ _ Hvalid Hpre Hc) as Hargs.
  rewrite forallb_forall in Hargs.
  assert (is_valid h1 q = true) as Hvq by by apply Hargs, list_elem_of_In.
  destruct (decide (j < i)%nat) as [|Hge]; [done|]. exfalso.
  assert (q ≠ nullptr) as Hnonnull.
  { eapply run_nonnull; [exact Hrun|]. eapply list_elem_of_lookup_2, Hj. }
  assert (run (c :: drop (S i) cs) s1 h1 = Ok ((p :: r2, s'), h')) as Htail.
  { apply run_cons. by exists p, r2, s2, h2. }
  rewrite lookup_app_r in Hj by lia.
  destruct (lookup_lt_is_Some_2 (c :: drop (S i) cs) (j - length r1)) as [c' Hc'].
  { rewrite <-(run_length _ _ _ _ _ _ Htail). eauto using lookup_lt_Some. }
  destruct (run_lookup _ _ _ _ _ _ _ _ _ Htail Hc' Hj) as [Hfree _].
  unfold is_valid in Hvq. rewrite Hfree in Hvq.
  by apply bool_decide_eq_true in Hvq.
Qed.

(** The node a returned address holds, with the call that made it. *)
Lemma returned_node cs s h rets s' (h' : heap) p :
  run cs s h = Ok ((rets, s'), h') → p ∈ rets →
  ∃ i c, cs !! i = Some c ∧ rets !! i = Some p ∧ h' !! p = Some (node_of c).
Proof.
  intros Hrun (i & Hi)%list_elem_of_lookup.
  destruct (lookup_lt_is_Some_2 cs i) as [c Hc].
  { rewrite <-(run_length _ _ _ _ _ _ Hrun). eauto using lookup_lt_Some. }
  exists i, c. split_and!; try done.
  by destruct (run_lookup _ _ _ _ _ _ _ _ _ Hrun Hc Hi).
Qed.

Lemma all_nodes_unfold s :
  all_nodes s =
    std_list.nodes (storage KVar s) ++ std_list.nodes (storage KAbs s) ++
    std_list.nodes (storage KApp s) ++ std_list.nodes (storage KDecl s) ++
    std_list.nodes (storage KEval s).
Proof. unfold all_nodes, all_kinds. simpl. by rewrite app_nil_r. Qed.

Local Ltac move_to_front :=
  rewrite ?app_assoc; symmetry; apply Permutation_cons_app;
  rewrite <-?app_assoc; by symmetry.

Lemma returned_of_partition cs rets :
  length rets = length cs →
  returned_of KVar cs rets ++ returned_of KAbs cs rets ++
  returned_of KApp cs rets ++ returned_of KDecl cs rets ++
  returned_of KEval cs rets ≡ₚ rets.
Proof.
  revert rets. induction cs as [|c cs IH]; intros [|p rets]; simpl; try done.
  intros [= Hlen]. specialize (IH _ Hlen).
  destruct c; simpl.
  - by constructor.
  - move_to_front.
  - move_to_front.
  - move_to_front.
  - move_to_front.
Qed.

(** X1.  The Variable that [make_variable(sym)] returns wraps exactly
    [sym], and the Application that [make_application(left, right)]
    returns has exactly [left] and [right] as its two sides; either is
    returned at an address that is not null and was not in use. *)
Theorem variable_and_application_expose_arguments tf h :
  (∀ sym p tf' (h' : heap),
     term_factory.make_variable sym tf h = Ok ((p, tf'), h') →
     symbol h' p = Some sym ∧ p ≠ nullptr ∧ h !! p = None) ∧
  (∀ lhs rhs p tf' (h' : heap),
     term_factory.make_application lhs rhs tf h = Ok ((p, tf'), h') →
     left h' p = Some lhs ∧ right h' p = Some rhs ∧
     p ≠ nullptr ∧ h !! p = None).
Proof.
  split.
  - intros sym p tf' h'. rewrite make_variable_unfold.
    destruct (allocate h) as [a|] eqn:Ha; [|done]. intros [= <- <- <-].
    unfold symbol. rewrite lookup_insert_eq.
    eauto using allocate_nonnull, allocate_fresh.
  - intros lhs rhs p tf' h'. rewrite make_application_unfold.
    destruct (allocate h) as [a|] eqn:Ha; [|done]. intros [= <- <- <-].
    unfold left, right. rewrite lookup_insert_eq.
    eauto 6 using allocate_nonnull, allocate_fresh.
Qed.

(** X2.  Sharing, not copying: when the address [t] of a live object is
    given to two [make_application] calls, with any calls in between,
    the two Applications are distinct nodes, distinct from [t], both
    store the address [t] itself, the object at [t] is as it was, and
    the arenas have grown by the calls made and by nothing else. *)
Theorem shared_subterm_is_not_copied t r1 r2 cs s h o
    a1 s1 (h1 : heap) rets s2 (h2 : heap) a2 s3 (h3 : heap) :
  h !! t = Some o →
  perform (MakeApplication t r1) s h = Ok ((a1, s1), h1) →
  run cs s1 h1 = Ok ((rets, s2), h2) →
  perform (MakeApplication r2 t) s2 h2 = Ok ((a2, s3), h3) →
  left h3 a1 = Some t ∧ right h3 a2 = Some t ∧
  a1 ≠ a2 ∧ a1 ≠ t ∧ a2 ≠ t ∧
  h3 !! t = Some o ∧
  node_count s3 = (node_count s + length cs + 2)%nat.
Proof.
  intros Ht (Ha1 & -> & ->)%perform_Ok Hrun (Ha2 & -> & ->)%perform_Ok.
  apply allocate_fresh in Ha1, Ha2.
  assert (a1 ≠ t) as Hne1 by congruence.
  pose proof (run_heap_mono _ _ _ _ _ _ Hrun) as Hsub.
  assert (h2 !! a1 = Some (Application_impl t r1)) as H1.
  { eapply lookup_weaken; [apply lookup_insert_eq|done]. }
  assert (h2 !! t = Some o) as H2.
  { eapply lookup_weaken; [|done]. by rewrite lookup_insert_ne. }
  assert (a2 ≠ a1) as Hne2 by congruence.
  assert (a2 ≠ t) as Hne3 by congruence.
  unfold left, right.
  rewrite lookup_insert_eq, !lookup_insert_ne, H1, H2 by done.
  split_and!; try done.
  rewrite node_count_push_node, (run_node_count _ _ _ _ _ _ Hrun),
    node_count_push_node. lia.
Qed.

(** X3.  No dangling reference: when every node reference handed to a
    call is valid at the time of the call, every reference stored in a
    node the calls created is valid in the free store reached, null or
    the address of a live object, and it stays valid whatever calls are
    made afterwards. *)
Theorem stored_references_stay_valid cs s0 h0 rets s (h : heap)
    cs' rets' s' (h' : heap) :
  valid_arguments cs s0 h0 = true →
  run cs s0 h0 = Ok ((rets, s), h) →
  run cs' s h = Ok ((rets', s'), h') →
  ∀ p o q, p ∈ rets → h' !! p = Some o → q ∈ node_refs o →
    is_valid h q = true ∧ is_valid h' q = true.
Proof.
  intros Hvalid Hrun Hrun' p o q Hp Ho Hq.
  destruct (returned_node _ _ _ _ _ _ _ Hrun Hp) as (i & c & Hc & Hi & Hnode).
  pose proof (run_heap_mono _ _ _ _ _ _ Hrun') as Hsub.
  assert (o = node_of c) as ->.
  { pose proof (lookup_weaken _ _ _ _ Hnode Hsub). congruence. }
  assert (is_valid h q = true) by eauto using valid_arguments_final.
  eauto using is_valid_mono.
Qed.

(** X4.  No cycle: when every node reference handed to a call is valid
    at the time of the call, no node the calls created reaches itself by
    following stored references through created nodes. *)
Theorem created_nodes_form_no_cycle cs s0 h0 rets s (h : heap) :
  valid_arguments cs s0 h0 = true →
  run cs s0 h0 = Ok ((rets, s), h) →
  ∀ p, ¬ tc (arena_edge rets h) p p.
Proof.
  intros Hvalid Hrun.
  assert (∀ p q, tc (arena_edge rets h) p q →
            ∃ i j, rets !! i = Some p ∧ rets !! j = Some q ∧ (j < i)%nat) as Hdown.
  { assert (∀ p q, arena_edge rets h p q →
              ∃ i j, rets !! i = Some p ∧ rets !! j = Some q ∧ (j < i)%nat) as Hstep.
    { intros p q (Hp & (j & Hj)%list_elem_of_lookup & o & Ho & Hq).
      destruct (returned_node _ _ _ _ _ _ _ Hrun Hp) as (i & c & Hc & Hi & Hnode).
      assert (o = node_of c) as -> by congruence.
      exists i, j. eauto using stored_reference_goes_back. }
    intros p q Hpq. induction Hpq as [p q Hpq|p q r Hpq _ IH]; [eauto|].
    destruct (Hstep _ _ Hpq) as (i & j & Hi & Hj & Hlt).
    destruct IH as (j' & k' & Hj' & Hk' & Hlt').
    assert (j' = j) as -> by eauto using NoDup_lookup, run_NoDup.
    exists i, k'. split_and!; [done..|lia]. }
  intros p (i & j & Hi & Hj & Hlt)%Hdown.
  assert (i = j) by eauto using NoDup_lookup, run_NoDup. lia.
Qed.

(** X5.  Ownership: in arenas built from empty by any sequence of calls,
    the nodes the storages hold are exactly the addresses the calls
    returned, each held once; a node of a storage is not null, is alive,
    and is of the kind of that storage, so no node is in two storages. *)
Theorem arenas_own_the_returned_nodes cs h0 rets s (h : heap) :
  run cs no_nodes h0 = Ok ((rets, s), h) →
  all_nodes s ≡ₚ rets ∧
  NoDup (all_nodes s) ∧
  (∀ k q, q ∈ std_list.nodes (storage k s) →
     q ≠ nullptr ∧ ∃ o, h !! q = Some o ∧ kind_of_object o = Some k) ∧
  (∀ k1 k2 q, q ∈ std_list.nodes (storage k1 s) →
     q ∈ std_list.nodes (storage k2 s) → k1 = k2).
Proof.
  intros Hrun.
  assert (all_nodes s ≡ₚ rets) as Hperm.
  { rewrite all_nodes_unfold.
    assert (∀ k, std_list.nodes (storage k s) = returned_of k cs rets) as Hst.
    { intros k. rewrite (run_storage _ _ _ _ _ _ k Hrun). by destruct k. }
    rewrite !Hst. eauto using returned_of_partition, run_length. }
  assert (∀ k q, q ∈ std_list.nodes (storage k s) →
            q ≠ nullptr ∧ ∃ o, h !! q = Some o ∧ kind_of_object o = Some k)
    as Htyped.
  { intros k q Hq.
    destruct (reached_node_alive _ _ _ _ _ _ _ Hrun Hq)
      as (i & c & Hc & Hi & <- & Hnode).
    split.
    - eapply run_nonnull; [exact Hrun|]. eapply list_elem_of_lookup_2, Hi.
    - exists (node_of c). split; [done|]. by destruct c. }
  split_and!; try done.
  - rewrite Hperm. eauto using run_NoDup.
  - intros k1 k2 q (_ & o1 & Ho1 & Hk1)%Htyped (_ & o2 & Ho2 & Hk2)%Htyped.
    congruence.
Qed.

(** X7.  Footprint: a sequence of calls allocates exactly the cells whose
    addresses it returns, one per call, and touches no other address of
    the free store, in use or not. *)
Theorem calls_allocate_exactly_their_nodes cs s h rets s' (h' : heap) :
  run cs s h = Ok ((rets, s'), h') →
  dom h' = dom h ∪ list_to_set rets ∧
  size h' = (size h + length cs)%nat ∧
  (∀ q, q ∉ rets → h' !! q = h !! q).
Proof.
  revert s h rets. induction cs as [|c cs IH]; intros s h rets.
  - intros (-> & _ & ->)%run_nil. simpl.
    split_and!; [|lia|done].
    by rewrite (right_id_L ∅ (∪)).
  - intros (p & rs & s1 & h1 & (Ha & -> & ->)%perform_Ok & Hrun%IH & ->)%run_cons.
    destruct Hrun as (Hdom & Hsize & Hother).
    apply allocate_fresh in Ha.
    split_and!.
    + rewrite Hdom, dom_insert_L, list_to_set_cons.
      by rewrite (assoc_L (∪)), (comm_L (∪) (dom h)).
    + rewrite Hsize, map_size_insert_None by done. simpl. lia.
    + intros q [Hqp Hq]%not_elem_of_cons.
      rewrite Hother by done. by rewrite lookup_insert_ne.
Qed.
End more_theory.

(** * The further properties on the concrete machine *)

Lemma variable_and_application_expose_arguments_witness :
  let tf := terms two_variables in
  let tf' := terms (push_node KApp 6 two_variables) in
  let h' := <[6 := Application_impl 4 5]> two_variables_heap in
  term_factory.make_application (allocator := bump 16) 4 5 tf two_variables_heap
    = Ok ((6, tf'), h') ∧
  left h' 6 = Some 4 ∧ right h' 6 = Some 5 ∧
  6 ≠ nullptr ∧ two_variables_heap !! 6 = None.
Proof.
  intros tf tf' h'. split; [vm_compute; reflexivity|].
  apply (proj2 (@variable_and_application_expose_arguments (bump 16) tf
                  two_variables_heap) 4 5 6 tf' h').
  vm_compute; reflexivity.
Defined.

(** The Variable [x], at address 4, as the left side of [x y] and,
    after another call, as the right side of [y x]. *)
Lemma shared_subterm_is_not_copied_witness :
  let s1 := push_node KApp 6 two_variables in
  let h1 := <[6 := Application_impl 4 5]> two_variables_heap in
  let s2 := push_node KVar 7 s1 in
  let h2 := <[7 := Variable_impl 3]> h1 in
  let s3 := push_node KApp 8 s2 in
  let h3 := <[8 := Application_impl 5 4]> h2 in
  two_variables_heap !! 4 = Some (Variable_impl 1) ∧
  perform (allocator := bump 16) (MakeApplication 4 5) two_variables
    two_variables_heap = Ok ((6, s1), h1) ∧
  run (allocator := bump 16) [MakeVariable 3] s1 h1 = Ok (([7], s2), h2) ∧
  perform (allocator := bump 16) (MakeApplication 5 4) s2 h2 = Ok ((8, s3), h3) ∧
  left h3 6 = Some 4 ∧ right h3 8 = Some 4 ∧
  6 ≠ 8 ∧ 6 ≠ 4 ∧ 8 ≠ 4 ∧
  h3 !! 4 = Some (Variable_impl 1) ∧
  node_count s3 = (node_count two_variables + 1 + 2)%nat.
Proof.
  intros s1 h1 s2 h2 s3 h3.
  split; [vm_compute; reflexivity|].
  split; [vm_compute; reflexivity|].
  split; [vm_compute; reflexivity|].
  split; [vm_compute; reflexivity|].
  apply (@shared_subterm_is_not_copied (bump 16) 4 5 5 [MakeVariable 3]
           two_variables two_variables_heap (Variable_impl 1)
           6 s1 h1 [7] s2 h2 8 s3 h3);
    vm_compute; reflexivity.
Defined.

(** The application chain, built with valid arguments, followed by a
    call that is handed two wild addresses. *)
Lemma stored_references_stay_valid_witness :
  let cs := [MakeVariable 1; MakeVariable 2; MakeApplication 4 5] in
  let s := push_node KApp 6 two_variables in
  let h := <[6 := Application_impl 4 5]> two_variables_heap in
  let s' := push_node KAbs 7 s in
  let h' := <[7 := Abstraction_impl 12 13]> h in
  valid_arguments (allocator := bump 16) cs no_nodes symbols = true ∧
  run (allocator := bump 16) cs no_nodes symbols = Ok (([4; 5; 6], s), h) ∧
  run (allocator := bump 16) [MakeAbstraction 12 13] s h = Ok (([7], s'), h') ∧
  ∀ p o q, p ∈ [4; 5; 6] → h' !! p = Some o → q ∈ node_refs o →
    is_valid h q = true ∧ is_valid h' q = true.
Proof.
  intros cs s h s' h'.
  split; [vm_compute; reflexivity|].
  split; [vm_compute; reflexivity|].
  split; [vm_compute; reflexivity|].
  apply (@stored_references_stay_valid (bump 16) cs no_nodes symbols
           [4; 5; 6] s h [MakeAbstraction 12 13] [7] s' h');
    vm_compute; reflexivity.
Defined.

Lemma created_nodes_form_no_cycle_witness :
  let cs := [MakeVariable 1; MakeVariable 2; MakeApplication 4 5;
             MakeAbstraction 4 6; MakeApplication 7 7] in
  let s := push_node KApp 8 (push_node KAbs 7 (push_node KApp 6 two_variables)) in
  let h := <[8 := Application_impl 7 7]> (<[7 := Abstraction_impl 4 6]>
             (<[6 := Application_impl 4 5]> two_variables_heap)) in
  valid_arguments (allocator := bump 16) cs no_nodes symbols = true ∧
  run (allocator := bump 16) cs no_nodes symbols = Ok (([4; 5; 6; 7; 8], s), h) ∧
  ∀ p, ¬ tc (arena_edge [4; 5; 6; 7; 8] h) p p.
Proof.
  intros cs s h.
  split; [vm_compute; reflexivity|].
  split; [vm_compute; reflexivity|].
  apply (@created_nodes_form_no_cycle (bump 16) cs no_nodes symbols
           [4; 5; 6; 7; 8] s h);
    vm_compute; reflexivity.
Defined.

Lemma arenas_own_the_returned_nodes_witness :
  let cs := [MakeVariable 1; MakeVariable 2; MakeApplication 4 5;
             MakeDeclaration 4 6; MakeEvaluation 6] in
  let s := push_node KEval 8 (push_node KDecl 7 (push_node KApp 6 two_variables)) in
  let h := <[8 := Evaluation_impl 6]> (<[7 := Declaration_impl 4 6]>
             (<[6 := Application_impl 4 5]> two_variables_heap)) in
  run (allocator := bump 16) cs no_nodes symbols = Ok (([4; 5; 6; 7; 8], s), h) ∧
  all_nodes s ≡ₚ [4; 5; 6; 7; 8] ∧
  NoDup (all_nodes s) ∧
  (∀ k q, q ∈ std_list.nodes (storage k s) →
     q ≠ nullptr ∧ ∃ o, h !! q = Some o ∧ kind_of_object o = Some k) ∧
  (∀ k1 k2 q, q ∈ std_list.nodes (storage k1 s) →
     q ∈ std_list.nodes (storage k2 s) → k1 = k2).
Proof.
  intros cs s h. split; [vm_compute; reflexivity|].
  apply (@arenas_own_the_returned_nodes (bump 16) cs symbols [4; 5; 6; 7; 8] s h).
  vm_compute; reflexivity.
Defined.

Lemma calls_allocate_exactly_their_nodes_witness :
  let cs := [MakeApplication 4 5; MakeEvaluation 6] in
  let s' := push_node KEval 7 (push_node KApp 6 two_variables) in
  let h' := <[7 := Evaluation_impl 6]> (<[6 := Application_impl 4 5]>
              two_variables_heap) in
  run (allocator := bump 16) cs two_variables two_variables_heap
    = Ok (([6; 7], s'), h') ∧
  dom h' = dom two_variables_heap ∪ list_to_set [6; 7] ∧
  size h' = (size two_variables_heap + 2)%nat ∧
  (∀ q, q ∉ [6; 7] → h' !! q = two_variables_heap !! q).
Proof.
  intros cs s' h'. split; [vm_compute; reflexivity|].
  apply (@calls_allocate_exactly_their_nodes (bump 16) cs two_variables
           two_variables_heap [6; 7] s' h').
  vm_compute; reflexivity.
Defined.
